(** * tshdl: the Shape / Value algebra and its sizing utilities

    A shallow embedding of [src/util.ts], [src/types.ts] and
    [src/hdl/ast.ts], followed by the properties of the constructors and
    of the sizing functions.

    Conventions of the embedding.
    - A [bigint] is a [Z]; its bit operators are [Z.land], [Z.lor],
      [Z.lnot], [Z.shiftl] and [Z.shiftr] (a [bigint] shift by a negative
      count shifts the other way, as [Z.shiftl] and [Z.shiftr] do).
    - A [number] keeps [NaN] and the two infinities apart and takes a
      finite double as the rational it denotes; arithmetic on finite
      numbers is exact (as double arithmetic is on the integers below
      2^53) and [-0] is identified with [0].
    - A number the source obtains as the length of a string (the result of
      [bitLength], [log2_int] and [bitsFor]) is carried as a [Z] and
      injected into [number] where it is stored in a [Shape].
    - A function that can throw returns a [result]; [assert] is the one of
      deno's [std/testing/asserts.ts].  A message built by a template
      literal over a [number] is kept as the template.
    - The run-time type tests of the [cast] functions ([instanceof],
      [typeof], [Array.isArray]) are the constructors of the argument's
      type. *)

From Stdlib Require Import ZArith QArith List String Ascii Bool Lia Lqa.
From Stdlib Require Import DecimalString FinFun.
Import ListNotations.

Local Open Scope string_scope.
Local Open Scope Z_scope.

(** ** Exceptions and the error monad *)

Inductive exn : Type :=
| AssertionError (msg : string)   (* thrown by [assert] *)
| RangeError (msg : string)       (* thrown by [BigInt] on a non-integer *)
| Thrown (s : string).            (* [throw "..."] of a plain string *)

Inductive result (A : Type) : Type :=
| Ok (a : A)
| Err (e : exn).

Arguments Ok {A} a.
Arguments Err {A} e.

Definition bind {A B : Type} (m : result A) (k : A -> result B) : result B :=
  match m with
  | Ok a => k a
  | Err e => Err e
  end.

Notation "x <- m ;; k" := (bind m (fun x => k))
  (at level 61, m at next level, right associativity).
Notation "m ;;; k" := (bind m (fun _ => k))
  (at level 61, right associativity).

Definition assert (cond : bool) (msg : string) : result unit :=
  if cond then Ok tt else Err (AssertionError msg).

Definition succeeds {A : Type} (m : result A) : bool :=
  match m with Ok _ => true | Err _ => false end.

Fixpoint forEach {A : Type} (l : list A) (f : A -> result unit) : result unit :=
  match l with
  | [] => Ok tt
  | x :: l' => f x ;;; forEach l' f
  end.

Fixpoint mapM {A B : Type} (f : A -> result B) (l : list A) : result (list B) :=
  match l with
  | [] => Ok []
  | x :: l' => y <- f x ;; ys <- mapM f l' ;; Ok (y :: ys)
  end.

(** ** JavaScript numbers *)

Inductive number : Type :=
| NaN
| Infinity (negative : bool)
| Fin (q : Q).

Definition of_Z (z : Z) : number := Fin (inject_Z z).

Definition zero : number := of_Z 0.
Definition one : number := of_Z 1.

(** [a < b] and [a <= b]; any comparison with [NaN] is false. *)
Definition num_lt (a b : number) : bool :=
  match a, b with
  | NaN, _ | _, NaN => false
  | Infinity true, Infinity true => false
  | Infinity true, _ => true
  | _, Infinity true => false
  | Infinity false, _ => false
  | _, Infinity false => true
  | Fin p, Fin q => negb (Qle_bool q p)
  end.

Definition num_le (a b : number) : bool :=
  match a, b with
  | NaN, _ | _, NaN => false
  | Infinity true, _ => true
  | _, Infinity true => false
  | _, Infinity false => true
  | Infinity false, _ => false
  | Fin p, Fin q => Qle_bool p q
  end.

Definition num_gt (a b : number) : bool := num_lt b a.
Definition num_ge (a b : number) : bool := num_le b a.

(** [a === b] on two numbers. *)
Definition num_eq (a b : number) : bool :=
  match a, b with
  | Infinity s, Infinity t => Bool.eqb s t
  | Fin p, Fin q => Qeq_bool p q
  | _, _ => false
  end.

Definition num_neg (a : number) : number :=
  match a with
  | NaN => NaN
  | Infinity s => Infinity (negb s)
  | Fin q => Fin (- q)
  end.

Definition num_add (a b : number) : number :=
  match a, b with
  | NaN, _ | _, NaN => NaN
  | Infinity s, Infinity t => if Bool.eqb s t then Infinity s else NaN
  | Infinity s, _ | _, Infinity s => Infinity s
  | Fin p, Fin q => Fin (p + q)
  end.

Definition num_sub (a b : number) : number := num_add a (num_neg b).

(** [Math.min(...l)] and [Math.max(...l)]: the neutral element on an
    empty argument list, [NaN] as soon as one argument is [NaN]. *)
Definition min2 (a b : number) : number :=
  match a, b with
  | NaN, _ | _, NaN => NaN
  | _, _ => if num_le a b then a else b
  end.

Definition max2 (a b : number) : number :=
  match a, b with
  | NaN, _ | _, NaN => NaN
  | _, _ => if num_le a b then b else a
  end.

Definition Math_min (l : list number) : number :=
  fold_left min2 l (Infinity false).

Definition Math_max (l : list number) : number :=
  fold_left max2 l (Infinity true).

(** ** [number | bigint] *)

Inductive numeric : Type :=
| Num (x : number)
| Big (z : Z).

(** [a === b]: never true across the two types. *)
Definition strict_equals (a b : numeric) : bool :=
  match a, b with
  | Num x, Num y => num_eq x y
  | Big x, Big y => x =? y
  | _, _ => false
  end.

Definition is_integer (q : Q) : bool :=
  (Qnum q mod Zpos (Qden q)) =? 0.

Definition not_an_integer : exn :=
  RangeError "The number ${n} cannot be converted to a BigInt because it is not an integer".

(** [BigInt(n)]: the identity on a [bigint], a [RangeError] on a number
    that is not an integer. *)
Definition BigInt (n : numeric) : result Z :=
  match n with
  | Big z => Ok z
  | Num (Fin q) =>
      if is_integer q then Ok (Qnum q / Zpos (Qden q)) else Err not_an_integer
  | Num _ => Err not_an_integer
  end.

(** ** [src/util.ts] *)

(** [n.toString(2)] on a [bigint]. *)
Fixpoint binary_digits (p : positive) : string :=
  match p with
  | xH => "1"
  | xO p' => (binary_digits p' ++ "0")%string
  | xI p' => (binary_digits p' ++ "1")%string
  end.

Definition toString2 (n : Z) : string :=
  match n with
  | Z0 => "0"
  | Zpos p => binary_digits p
  | Zneg p => ("-" ++ binary_digits p)%string
  end.

(** [`${n}`] on a [bigint]. *)
Definition toString10 (n : Z) : string :=
  NilZero.string_of_int (Z.to_int n).

(** [bitLength], at the only type its call site in [log2_int] gives it: a
    [bigint].  The test [n === 0] compares that [bigint] with the number
    [0]. *)
Definition bitLength (n : Z) (zeroIsZero : bool) : Z :=
  let n := if n <? 0 then - n else n in
  if strict_equals (Big n) (Num zero) && zeroIsZero then 0
  else Z.of_nat (String.length (toString2 n)).

Definition log2_int (n : numeric) (need_pow2 : bool) : result Z :=
  if strict_equals n (Num zero) then Ok 0
  else
    n <- BigInt n ;;
    let r := bitLength (n - 1) false in
    if need_pow2 && negb (Z.shiftl 1 r =? n)
    then Err (Thrown (toString10 n ++ " is not a power of 2.")%string)
    else Ok r.

Definition bitsFor (n : numeric) (requireSignBit : bool) : result Z :=
  n <- BigInt n ;;
  rs <- (if n >? 0
         then r <- log2_int (Big (n + 1)) false ;; Ok (r, requireSignBit)
         else r <- log2_int (Big (- n)) false ;; Ok (r, true)) ;;
  let '(r, requireSignBit) := rs in
  if requireSignBit then Ok (r + 1) else Ok r.

(** ** [src/types.ts] *)

Definition IDictionary (T : Type) : Type := list (string * T).

Definition Object_values {T : Type} (obj : IDictionary T) : list T :=
  map snd obj.

Record Range : Type := mkRange {
  start : number;
  stop : number;
  step : number
}.

(** The argument of [new Range(args)]: a number, an array of numbers, or
    an object with an optional [start], a [stop] and an optional [step]. *)
Inductive RangeArgs : Type :=
| ArgsNumber (args : number)
| ArgsArray (args : list number)
| ArgsNamed (start : option number) (stop : number) (step : option number).

(** [if (x)] on a number. *)
Definition truthy (x : number) : bool :=
  match x with
  | NaN => false
  | Infinity _ => true
  | Fin q => negb (Qeq_bool q 0)
  end.

(** [x ?? d] *)
Definition nullish {T : Type} (x : option T) (d : T) : T :=
  match x with
  | Some v => v
  | None => d
  end.

Definition Range_new (args : RangeArgs) : result Range :=
  match args with
  | ArgsNumber n => Ok (mkRange zero n one)
  | ArgsNamed a_start a_stop a_step =>
      (match a_step with
       | Some s =>
           if truthy s
           then assert (negb (num_eq s zero)) "`step` must be non-zero." ;;;
                assert (num_gt s zero) "`step` must be positive."
           else Ok tt
       | None => Ok tt
       end) ;;;
      Ok (mkRange (nullish a_start zero) a_stop (nullish a_step one))
  | ArgsArray l =>
      assert (negb (Nat.eqb (List.length l) 0))
        "Invalid amount of arguments. Expected 1, 2, or 3; Given 0." ;;;
      assert (Nat.leb (List.length l) 3)
        "Invalid amount of arguments. Expected 1, 2, or 3; Given ${args.length}." ;;;
      match l with
      | [a] => Ok (mkRange zero a one)
      | [a; b] => Ok (mkRange a b one)
      | a :: b :: c :: _ =>
          assert (negb (num_eq c zero)) "`step` must be non-zero." ;;;
          assert (num_gt c zero) "`step` must be positive." ;;;
          Ok (mkRange a b c)
      | [] => Err (AssertionError "Invalid amount of arguments. Expected 1, 2, or 3; Given 0.")
      end
  end.

(** The two [for] loops of the iterator; [None] when [fuel] iterations
    did not reach the end of the loop. *)
Fixpoint count_down (fuel : nat) (current r_stop r_step : number) : option (list number) :=
  if num_gt current r_stop then
    match fuel with
    | O => None
    | S fuel' =>
        option_map (cons current)
          (count_down fuel' (num_sub current r_step) r_stop r_step)
    end
  else Some [].

Fixpoint count_up (fuel : nat) (current r_stop r_step : number) : option (list number) :=
  if num_lt current r_stop then
    match fuel with
    | O => None
    | S fuel' =>
        option_map (cons current)
          (count_up fuel' (num_add current r_step) r_stop r_step)
    end
  else Some [].

(** [[...range]]: the values the generator yields, in order. *)
Definition Range_iterator (fuel : nat) (r : Range) : option (list number) :=
  if num_eq (start r) (stop r) then Some []
  else if num_lt (stop r) (start r)
       then count_down fuel (start r) (stop r) (step r)
       else count_up fuel (start r) (stop r) (step r).

(** ** [src/hdl/ast.ts]: [Shape] *)

Record Shape : Type := mkShape {
  width : number;
  signed : bool
}.

Definition Shape_new (width : number) (signed : bool) : result Shape :=
  assert (num_ge width one) "Shape must be non-negative and non-zero." ;;;
  Ok (mkShape width signed).

Definition Shape_signed (width : number) : result Shape :=
  Shape_new width true.

Definition Shape_unsigned (width : number) : result Shape :=
  Shape_new width false.

Inductive ShapeCastFrom : Type :=
| CastShape (obj : Shape)
| CastNumber (obj : number)
| CastTuple (obj0 : number) (obj1 : bool)
| CastRange (obj : Range)
| CastDictionary (obj : IDictionary number).

Definition Shape_cast (obj : ShapeCastFrom) : result Shape :=
  match obj with
  | CastShape obj => Shape_new (width obj) (signed obj)
  | CastNumber obj => Shape_unsigned obj
  | CastTuple obj0 obj1 => Shape_new obj0 obj1
  | CastRange obj =>
      let signed :=
        num_lt (start obj) zero || num_lt (num_sub (stop obj) (step obj)) zero in
      a <- bitsFor (Num (start obj)) signed ;;
      b <- bitsFor (Num (num_sub (stop obj) (step obj))) signed ;;
      Shape_new (of_Z (Z.max a b)) signed
  | CastDictionary obj =>
      let min := Math_min (Object_values obj) in
      let max := Math_min (Object_values obj) in
      let signed := num_lt min zero || num_lt max zero in
      a <- bitsFor (Num min) signed ;;
      b <- bitsFor (Num max) signed ;;
      Shape_new (of_Z (Z.max a b)) signed
  end.

Inductive ShapeCompareTo : Type :=
| CompareShape (other : Shape)
| CompareTuple (other0 : number) (other1 : bool).

Definition Shape_equals (self : Shape) (other : ShapeCompareTo) : bool :=
  match other with
  | CompareTuple other0 other1 =>
      num_eq (width self) other0 && Bool.eqb (signed self) other1
  | CompareShape other =>
      num_eq (width self) (width other) && Bool.eqb (signed self) (signed other)
  end.

(** ** [src/hdl/ast.ts]: [Const] *)

Record Const : Type := mkConst {
  value : Z;
  shape : Shape
}.

Definition normalize (value : Z) (shape : Shape) : result Z :=
  let '(mkShape width signed) := shape in
  w <- BigInt (Num width) ;;
  (* a string of 1 bits [width] long *)
  let mask := Z.shiftl 1 w - 1 in
  (* chop off bits at positions greater than [width] *)
  let value := Z.land value mask in
  (* set the highest bit if [signed] *)
  if signed then
    w1 <- BigInt (Num (num_sub width one)) ;;
    if negb (Z.shiftr value w1 =? 0)
    then Ok (Z.lor value (Z.lnot mask))
    else Ok value
  else Ok value.

(** [new Const(value, shape)]; [None] is [shape === undefined]. *)
Definition Const_new (value : Z) (shape : option Shape) : result Const :=
  shape <- match shape with
           | Some s => Ok s
           | None =>
               w <- bitsFor (Big value) false ;;
               Shape_new (of_Z w) (value <? 0)
           end ;;
  value <- normalize value shape ;;
  Ok (mkConst value shape).

(** ** [src/hdl/ast.ts]: [Value] and its subclasses *)

Inductive ValueOp : Type :=
| OpInvert | OpMinus                               (* "~" "-" *)
| OpPlus | OpTimes | OpMod | OpDiv                 (* "+" "*" "%" "/" *)
| OpShl | OpShr | OpUshr                           (* "<<" ">>" ">>>" *)
| OpAnd | OpXor | OpOr                             (* "&" "^" "|" *)
| OpEq | OpNe | OpLt | OpLe | OpGt | OpGe          (* "==" ... ">=" *)
| OpAbs                                            (* "abs" *)
| OpU | OpS | OpB                                  (* "u" "s" "b" *)
| OpAny | OpAll | OpMux.                           (* "any" "all" "mux" *)

(** The construction-site tag [src] is opaque and left out. *)
#[warnings="-register-all"]
Inductive Value : Type :=
| VConst (c : Const)
| VAnyValue (shape : Shape)
| VOperator (operator : ValueOp) (operands : list Value)
| VSlice (value : Value) (start stop : number).

Inductive ValueCastFrom : Type :=
| FromValue (obj : Value)
| FromNumber (obj : number)
| FromDictionary (obj : IDictionary number).

Definition Value_cast (obj : ValueCastFrom) : result Value :=
  match obj with
  | FromValue obj => Ok obj
  | FromNumber _ => Err (Thrown "")
  | FromDictionary _ => Err (Thrown "")
  end.

(** The [shape] of a value: a field of [Const] and [AnyValue], a getter
    of [Operator] and [Slice]. *)
Definition Value_shape (self : Value) : result Shape :=
  match self with
  | VConst c => Ok (shape c)
  | VAnyValue shape => Ok shape
  | VOperator _ _ => Err (Thrown "")
  | VSlice _ start stop => Shape_new (num_sub stop start) false
  end.

Definition Value_op (self : Value) (op : ValueOp) (args : list ValueCastFrom)
  : result Value :=
  Err (Thrown "").

(** [/[^01*]+/.test(testStr)] *)
Definition ValidMatchChar (c : ascii) : bool :=
  (Ascii.eqb c "1" || Ascii.eqb c "0" || Ascii.eqb c "*")%char.

Definition regex_test (testStr : string) : bool :=
  existsb (fun c => negb (ValidMatchChar c)) (list_ascii_of_string testStr).

Definition matches (self : Value) (patterns : list string) : result bool :=
  forEach patterns (fun testStr =>
    assert (regex_test testStr)
      ("Match test string '" ++ testStr ++ "' contains invalid characters.")%string) ;;;
  Err (Thrown "").

Definition AnyValue_new (shape : ShapeCastFrom) : result Value :=
  shape <- Shape_cast shape ;;
  Ok (VAnyValue shape).

Definition Operator_new (operator : ValueOp) (operands : list ValueCastFrom)
  : result Value :=
  operands <- mapM Value_cast operands ;;
  Ok (VOperator operator operands).

Definition Mux (selector : ValueCastFrom) (valTrue valFalse : Value) : result Value :=
  value <- Value_cast selector ;;
  b <- Value_op value OpB [] ;;
  Operator_new OpMux [FromValue b; FromValue valTrue; FromValue valFalse].

Definition Slice_new (value : ValueCastFrom) (start stop : number) : result Value :=
  value2 <- Value_cast value ;;
  sh <- Value_shape value2 ;;
  let n := width sh in
  assert (num_ge (num_neg (num_add n one)) start && num_le (num_add n one) start)
    "Cannot start a slice ${start} bits into ${n}-bit value." ;;;
  assert (num_ge (num_neg (num_add n one)) stop && num_le (num_add n one) stop)
    "Cannot stop a slice ${stop} bits into ${n}-bit value." ;;;
  (* negative indexing wraps around *)
  let start := if num_lt start zero then num_add start n else start in
  (* [stop = + n]: the unary plus of [n] *)
  let stop := if num_lt stop zero then n else stop in
  assert (num_le stop start)
    "Slice start (${start}) must be less than slice stop (${stop})." ;;;
  Ok (VSlice value2 start stop).

(** ** [src/hdl/ast.ts]: signal sets and constant folding *)

(** [SignalSet] is an object from names to [unknown]; the only one the
    source builds is the empty literal. *)
Definition SignalSet : Type := IDictionary unit.

(** [__lhsSignals]: the base method throws, [Slice] asks the sliced
    value, no other subclass overrides it. *)
Fixpoint Value_lhsSignals (self : Value) : result SignalSet :=
  match self with
  | VSlice value _ _ => Value_lhsSignals value
  | _ => Err (Thrown "Value cannot be used in assignments.")
  end.

Fixpoint Value_rhsSignals (self : Value) : result SignalSet :=
  match self with
  | VConst _ => Ok []
  | VAnyValue _ => Ok []
  | VOperator _ _ => Err (Thrown "")
  | VSlice value _ _ => Value_rhsSignals value
  end.

(** [__asConst]: [Const] returns itself, the base method throws. *)
Definition Value_asConst (self : Value) : result Const :=
  match self with
  | VConst c => Ok c
  | _ => Err (Thrown "Value cannot be evaluated as a constant.")
  end.

(** ** [src/hdl/ast.ts]: [DUID] *)

Module DUID.

Record t : Type := mk { value : Z }.

End DUID.

(** [new DUID()], with the static counter [DUID.__next] as explicit
    state.  The counter starts at [0] and is only ever incremented: it is
    carried as a [Z]. *)
Definition DUID_new (next : Z) : DUID.t * Z :=
  (DUID.mk next, next + 1).

(** [n] constructions in a row. *)
Fixpoint DUID_sequence (n : nat) (next : Z) : list DUID.t * Z :=
  match n with
  | O => ([], next)
  | S n' =>
      let '(d, next1) := DUID_new next in
      let '(ds, next2) := DUID_sequence n' next1 in
      (d :: ds, next2)
  end.

(** ** Vocabulary of the statements *)

(** The integers a [w]-bit signal of the given signedness can hold. *)
Definition representable (w : Z) (signed : bool) (v : Z) : Prop :=
  if signed then - 2 ^ (w - 1) <= v <= 2 ^ (w - 1) - 1
  else 0 <= v <= 2 ^ w - 1.

(** [r] and [v] have the same low [w] bits. *)
Definition congruent (w : Z) (r v : Z) : Prop :=
  (r - v) mod 2 ^ w = 0.

(** [w] is the least width at which [v] is representable. *)
Definition minimal_width (signed : bool) (v w : Z) : Prop :=
  1 <= w /\
  representable w signed v /\
  forall w', 1 <= w' < w -> ~ representable w' signed v.

(** * Properties *)

(** ** Numbers *)

Lemma BigInt_integer (z : Z) : BigInt (Num (of_Z z)) = Ok z.
Proof.
  unfold BigInt, of_Z, is_integer, inject_Z; simpl.
  rewrite Z.mod_1_r, Z.div_1_r; reflexivity.
Qed.

Lemma BigInt_minus_one (x : number) (w : Z) :
  BigInt (Num x) = Ok w -> BigInt (Num (num_sub x one)) = Ok (w - 1).
Proof.
  destruct x as [| s | [a d]]; simpl; try discriminate.
  unfold is_integer; simpl.
  destruct (a mod Z.pos d =? 0) eqn:Hint; [| discriminate].
  intros [= <-].
  rewrite Pos.mul_1_r, Z.mul_1_r.
  replace (a + Z.neg d) with (a + (-1) * Z.pos d) by lia.
  rewrite Z.mod_add by discriminate.
  rewrite Hint, Z.div_add by discriminate.
  f_equal; lia.
Qed.

(** ** [Const.normalize] *)

Section Normalize.

Variable w : Z.
Hypothesis w_pos : 1 <= w.

Let mask := Z.shiftl 1 w - 1.

Lemma mask_ones : mask = Z.ones w.
Proof. unfold mask, Z.ones; rewrite Z.sub_1_r; reflexivity. Qed.

Lemma masked_mod (v : Z) : Z.land v mask = v mod 2 ^ w.
Proof. rewrite mask_ones; apply Z.land_ones; lia. Qed.

Lemma masked_bounds (v : Z) : 0 <= Z.land v mask < 2 ^ w.
Proof. rewrite masked_mod; apply Z.mod_pos_bound; lia. Qed.

Lemma pow2_split : 2 ^ w = 2 * 2 ^ (w - 1).
Proof. rewrite <- Z.pow_succ_r by lia; f_equal; lia. Qed.

(** The test [value >> BigInt(width - 1)] is zero exactly below the
    sign bit. *)
Lemma sign_test (x : Z) :
  0 <= x < 2 ^ w -> (Z.shiftr x (w - 1) =? 0) = (x <? 2 ^ (w - 1)).
Proof.
  intros Hx.
  rewrite Z.shiftr_div_pow2 by lia.
  assert (Hp : 0 < 2 ^ (w - 1)) by (apply Z.pow_pos_nonneg; lia).
  destruct (x <? 2 ^ (w - 1)) eqn:Hlt.
  - apply Z.ltb_lt in Hlt; apply Z.eqb_eq, Z.div_small; lia.
  - apply Z.ltb_ge in Hlt; apply Z.eqb_neq.
    assert (1 <= x / 2 ^ (w - 1)) by (apply Z.div_le_lower_bound; lia).
    lia.
Qed.

(** Setting every bit above the mask subtracts [2 ^ w]. *)
Lemma sign_extend (x : Z) :
  0 <= x < 2 ^ w -> Z.lor x (Z.lnot mask) = x - 2 ^ w.
Proof.
  intros Hx.
  assert (Hdis : Z.land x (Z.lnot mask) = 0).
  { rewrite <- Z.ldiff_land, mask_ones, Z.ldiff_ones_r by lia.
    rewrite Z.shiftr_div_pow2, Z.div_small by lia.
    apply Z.shiftl_0_l. }
  rewrite <- Z.lxor_lor, <- Z.add_nocarry_lxor by exact Hdis.
  rewrite mask_ones; unfold Z.lnot, Z.ones.
  rewrite Z.shiftl_1_l; lia.
Qed.

End Normalize.

(** What [normalize] computes for a shape whose width is the integer
    [w >= 1]: the residue of [v] modulo [2^w], moved down by [2^w] when
    the shape is signed and the residue has its sign bit set. *)
Lemma normalize_eval (v : Z) (x : number) (s : bool) (w : Z) :
  BigInt (Num x) = Ok w ->
  1 <= w ->
  normalize v (mkShape x s) =
  Ok (let m := v mod 2 ^ w in
      if s && negb (m <? 2 ^ (w - 1)) then m - 2 ^ w else m).
Proof.
  intros Hw Hpos.
  unfold normalize; rewrite Hw; cbn [bind].
  pose proof (masked_bounds w Hpos v) as Hb.
  destruct s; cbn [bind andb].
  - rewrite (BigInt_minus_one _ _ Hw); cbn [bind].
    rewrite (sign_test w Hpos) by exact Hb.
    rewrite (sign_extend w Hpos) by exact Hb.
    rewrite (masked_mod w Hpos).
    destruct (v mod 2 ^ w <? 2 ^ (w - 1)); reflexivity.
  - rewrite (masked_mod w Hpos); reflexivity.
Qed.

(** On a width that is not an integer, [BigInt(width)] throws and
    nothing is normalized. *)
Lemma normalize_non_integral_width (v : Z) (s : bool) :
  normalize v (mkShape (Fin (3 # 2)) s) = Err not_an_integer.
Proof. reflexivity. Qed.

(** C1. For every integer [v] and every shape whose width is the integer
    [w >= 1], [Const.normalize] returns a value in [[0, 2^w - 1]] when the
    shape is unsigned and in [[-2^(w-1), 2^(w-1) - 1]] when it is signed,
    and that value agrees with [v] modulo [2^w]: it is the canonical
    two's-complement representative of [v] for the shape. *)
Theorem normalize_range (v : Z) (sh : Shape) (w : Z) :
  BigInt (Num (width sh)) = Ok w ->
  1 <= w ->
  exists r,
    normalize v sh = Ok r /\
    representable w (signed sh) r /\
    congruent w r v.
Proof.
  destruct sh as [x s]; cbn [width signed]; intros Hw Hpos.
  rewrite (normalize_eval v x s w Hw Hpos).
  eexists; split; [reflexivity |].
  pose proof (pow2_split w Hpos) as Hsplit.
  assert (Hp : 0 < 2 ^ (w - 1)) by (apply Z.pow_pos_nonneg; lia).
  assert (Hb : 0 <= v mod 2 ^ w < 2 ^ w) by (apply Z.mod_pos_bound; lia).
  assert (Hc : congruent w (v mod 2 ^ w) v).
  { unfold congruent.
    rewrite Zminus_mod_idemp_l, Z.sub_diag; apply Z.mod_0_l; lia. }
  unfold representable; cbn zeta.
  destruct s; cbn [andb].
  - destruct (v mod 2 ^ w <? 2 ^ (w - 1)) eqn:Hlt; cbn [negb].
    + apply Z.ltb_lt in Hlt; split; [lia | exact Hc].
    + apply Z.ltb_ge in Hlt; split; [lia |].
      unfold congruent in *.
      replace (v mod 2 ^ w - 2 ^ w - v)
        with (v mod 2 ^ w - v + (-1) * 2 ^ w) by lia.
      rewrite Z.mod_add by lia; exact Hc.
  - split; [lia | exact Hc].
Qed.

Lemma normalize_range_witness :
  exists r,
    normalize 200 (mkShape (of_Z 8) true) = Ok r /\
    representable 8 true r /\
    congruent 8 r 200.
Proof.
  apply (normalize_range 200 (mkShape (of_Z 8) true) 8).
  - reflexivity.
  - lia.
Defined.

(** Masking what [normalize] returns gives back the masked value. *)
Lemma remask_extended (x m : Z) :
  Z.land (Z.lor (Z.land x m) (Z.lnot m)) m = Z.land x m.
Proof.
  rewrite Z.land_lor_distr_l.
  rewrite <- Z.land_assoc, Z.land_diag.
  rewrite (Z.land_comm (Z.lnot m) m), Z.land_lnot_diag.
  apply Z.lor_0_r.
Qed.

Lemma remask (x m : Z) : Z.land (Z.land x m) m = Z.land x m.
Proof. rewrite <- Z.land_assoc, Z.land_diag; reflexivity. Qed.

(** C2. For every integer [v] and every shape, [Const.normalize] is
    idempotent: normalizing its result again, for the same shape, gives
    that result (and where the first call throws there is nothing to
    normalize again). *)
Theorem normalize_idempotent (v : Z) (sh : Shape) :
  (r <- normalize v sh ;; normalize r sh) = normalize v sh.
Proof.
  destruct sh as [x s]; unfold normalize.
  destruct (BigInt (Num x)) as [w | e] eqn:Hw; cbn [bind]; [| reflexivity].
  destruct s; cbn [bind].
  - rewrite (BigInt_minus_one _ _ Hw); cbn [bind].
    destruct (Z.shiftr (Z.land v (Z.shiftl 1 w - 1)) (w - 1) =? 0) eqn:Htest;
      cbn [bind negb].
    + rewrite remask, Htest; reflexivity.
    + rewrite remask_extended, Htest; reflexivity.
  - rewrite remask; reflexivity.
Qed.

(** ** [bitLength], [log2_int] and [bitsFor] *)

Lemma length_append (s t : string) :
  String.length (s ++ t) = (String.length s + String.length t)%nat.
Proof. induction s as [| c s IH]; simpl; [reflexivity | now rewrite IH]. Qed.

Lemma binary_digits_length (p : positive) :
  Z.of_nat (String.length (binary_digits p)) = Z.log2 (Zpos p) + 1.
Proof.
  induction p as [p IH | p IH |]; cbn [binary_digits].
  - rewrite length_append, Nat2Z.inj_add, IH.
    change (Z.pos p~1) with (2 * Z.pos p + 1).
    rewrite Z.log2_succ_double by lia; simpl; lia.
  - rewrite length_append, Nat2Z.inj_add, IH.
    change (Z.pos p~0) with (2 * Z.pos p).
    rewrite Z.log2_double by lia; simpl; lia.
  - reflexivity.
Qed.

(** [bitLength] never takes its [zeroIsZero] exit on a [bigint]: the
    binary numeral of [0n] is ["0"], one digit long. *)
Lemma bitLength_zero (zeroIsZero : bool) : bitLength 0 zeroIsZero = 1.
Proof. reflexivity. Qed.

Lemma bitLength_nonzero (n : Z) (zeroIsZero : bool) :
  n <> 0 -> bitLength n zeroIsZero = Z.log2 (Z.abs n) + 1.
Proof.
  intros Hn; unfold bitLength; cbn [strict_equals andb].
  destruct n as [| p | p]; [congruence | |]; cbn [Z.ltb Z.compare Z.opp];
    cbn [toString2]; apply binary_digits_length.
Qed.

Lemma log2_int_of_Z (n : Z) (need_pow2 : bool) :
  n <> 0 -> log2_int (Num (of_Z n)) need_pow2 = log2_int (Big n) need_pow2.
Proof.
  intros Hn; unfold log2_int.
  rewrite BigInt_integer; cbn [strict_equals BigInt].
  replace (num_eq (of_Z n) zero) with false; [reflexivity |].
  unfold num_eq, zero, of_Z, inject_Z, Qeq_bool; cbn [Qnum Qden].
  symmetry; apply Z.eqb_neq; lia.
Qed.

Lemma bitsFor_of_Z (n : Z) (requireSignBit : bool) :
  bitsFor (Num (of_Z n)) requireSignBit = bitsFor (Big n) requireSignBit.
Proof. unfold bitsFor; rewrite BigInt_integer; reflexivity. Qed.

(** Without [need_pow2], [log2_int] is the ceiling of the binary
    logarithm from 2 on. *)
Lemma log2_int_ceiling (n : Z) :
  2 <= n -> log2_int (Big n) false = Ok (Z.log2_up n).
Proof.
  intros Hn; unfold log2_int; cbn [strict_equals BigInt bind andb].
  rewrite bitLength_nonzero by lia.
  rewrite Z.abs_eq by lia.
  f_equal. unfold Z.log2_up.
  destruct (Z.compare_spec 1 n); try lia.
  rewrite Z.sub_1_r; lia.
Qed.

(** With [need_pow2], every power of two from 2 on is accepted and its
    exponent returned. *)
Lemma log2_int_power_of_two (k : Z) :
  1 <= k -> log2_int (Big (2 ^ k)) true = Ok k.
Proof.
  intros Hk.
  assert (Hp : 2 <= 2 ^ k).
  { change 2 with (2 ^ 1) at 1; apply Z.pow_le_mono_r; lia. }
  pose proof (log2_int_ceiling _ Hp) as Hc.
  unfold log2_int in *; cbn [strict_equals BigInt bind andb] in *.
  injection Hc as Hc; rewrite Hc.
  rewrite Z.log2_up_pow2 by lia.
  rewrite Z.shiftl_1_l, Z.eqb_refl; reflexivity.
Qed.

(** With [need_pow2], an integer other than [1] that is not a power of
    two is rejected. *)
Lemma log2_int_not_power_of_two (n : Z) :
  (forall k, 0 <= k -> n <> 2 ^ k) ->
  log2_int (Big n) true = Err (Thrown (toString10 n ++ " is not a power of 2.")%string).
Proof.
  intros Hn; unfold log2_int; cbn [strict_equals BigInt bind andb].
  assert (Hr : 0 <= bitLength (n - 1) false) by (unfold bitLength; cbn [strict_equals andb]; lia).
  destruct (Z.shiftl 1 (bitLength (n - 1) false) =? n) eqn:He; [| reflexivity].
  apply Z.eqb_eq in He; rewrite Z.shiftl_1_l in He.
  exfalso; exact (Hn _ Hr (eq_sym He)).
Qed.

(** C9. [log2_int(0)] returns [0], and [log2_int(8)] with [need_pow2]
    returns [3]; but [log2_int(1)] with [need_pow2] throws
    ["1 is not a power of 2."], although [1 = 2^0]: [bitLength] gives the
    [bigint] [0n] the length [1] of its numeral ["0"], so [r = 1] and
    [1n << 1n] is not [1n]. *)
Theorem log2_int_one_throws :
  log2_int (Num zero) true = Ok 0 /\
  log2_int (Num (of_Z 8)) true = Ok 3 /\
  log2_int (Num one) true = Err (Thrown "1 is not a power of 2.").
Proof. repeat split; reflexivity. Qed.

(** Only the number [0] takes the early exit: the [bigint] [0n] is not
    [=== 0]. *)
Lemma log2_int_bigint_zero :
  log2_int (Big 0) false = Ok 1 /\
  log2_int (Big 0) true = Err (Thrown "0 is not a power of 2.").
Proof. split; reflexivity. Qed.

Lemma bitsFor_positive (n : Z) :
  0 < n -> bitsFor (Big n) false = Ok (Z.log2 n + 1).
Proof.
  intros Hn; unfold bitsFor; cbn [BigInt bind].
  replace (n >? 0) with true by (symmetry; apply Z.gtb_lt; lia).
  rewrite log2_int_ceiling by lia; cbn [bind].
  f_equal. unfold Z.log2_up.
  destruct (Z.compare_spec 1 (n + 1)); try lia.
  replace (Z.pred (n + 1)) with n by lia; lia.
Qed.

Lemma bitsFor_negative (n : Z) (requireSignBit : bool) :
  n <= -2 -> bitsFor (Big n) requireSignBit = Ok (Z.log2_up (- n) + 1).
Proof.
  intros Hn; unfold bitsFor; cbn [BigInt bind].
  replace (n >? 0) with false by (symmetry; rewrite Z.gtb_ltb; apply Z.ltb_ge; lia).
  rewrite log2_int_ceiling by lia; reflexivity.
Qed.

(** For [n <= 0] the sign bit is counted whatever [requireSignBit] is. *)
Lemma bitsFor_sign_bit_forced (n : Z) (requireSignBit : bool) :
  n <= 0 -> bitsFor (Big n) requireSignBit = bitsFor (Big n) true.
Proof.
  intros Hn; unfold bitsFor; cbn [BigInt bind].
  replace (n >? 0) with false by (symmetry; rewrite Z.gtb_ltb; apply Z.ltb_ge; lia).
  destruct (log2_int (Big (- n)) false); reflexivity.
Qed.

(** [bitsFor] is the least unsigned width of a positive integer. *)
Lemma bitsFor_positive_minimal (n : Z) :
  0 < n -> exists w, bitsFor (Big n) false = Ok w /\ minimal_width false n w.
Proof.
  intros Hn; exists (Z.log2 n + 1); split; [apply bitsFor_positive, Hn |].
  pose proof (Z.log2_spec n Hn) as [Hlo Hhi].
  pose proof (Z.log2_nonneg n) as Hl.
  unfold minimal_width, representable.
  replace (Z.succ (Z.log2 n)) with (Z.log2 n + 1) in Hhi by lia.
  repeat split; try lia.
  intros w' Hw' [_ Hr].
  assert (2 ^ w' <= 2 ^ Z.log2 n) by (apply Z.pow_le_mono_r; lia).
  lia.
Qed.

(** [bitsFor] is the least signed width of an integer below [-1]. *)
Lemma bitsFor_negative_minimal (n : Z) (requireSignBit : bool) :
  n <= -2 ->
  exists w, bitsFor (Big n) requireSignBit = Ok w /\ minimal_width true n w.
Proof.
  intros Hn; exists (Z.log2_up (- n) + 1); split; [apply bitsFor_negative, Hn |].
  assert (H1 : 1 < - n) by lia.
  pose proof (Z.log2_up_spec (- n) H1) as [Hlo Hhi].
  assert (Hl : 0 < Z.log2_up (- n)) by (apply Z.log2_up_pos; lia).
  unfold minimal_width, representable.
  replace (Z.log2_up (- n) + 1 - 1) with (Z.log2_up (- n)) by lia.
  repeat split; try lia.
  intros w' Hw' [Hr _].
  assert (2 ^ (w' - 1) <= 2 ^ Z.pred (Z.log2_up (- n))) by (apply Z.pow_le_mono_r; lia).
  lia.
Qed.

Lemma bitsFor_examples :
  bitsFor (Num (of_Z 7)) false = Ok 3 /\
  bitsFor (Num (of_Z 8)) false = Ok 4 /\
  bitsFor (Num (of_Z (-8))) false = Ok 4.
Proof. repeat split; reflexivity. Qed.

(** C4. [bitsFor(0)] and [bitsFor(-1)] both return [2], where one bit
    (the sign bit alone) holds [0] and holds [-1]: on these two inputs
    [bitsFor] is not the minimal width. *)
Theorem bitsFor_zero_and_minus_one :
  bitsFor (Num (of_Z 0)) false = Ok 2 /\
  bitsFor (Num (of_Z (-1))) false = Ok 2 /\
  minimal_width true 0 1 /\
  minimal_width true (-1) 1.
Proof.
  split; [reflexivity |]; split; [reflexivity |].
  unfold minimal_width, representable; cbn; split; repeat split; lia.
Qed.

(** ** The [Const] constructor *)

Lemma Shape_new_ok (w : number) (s : bool) :
  num_ge w one = true -> Shape_new w s = Ok (mkShape w s).
Proof. intros Hw; unfold Shape_new; rewrite Hw; reflexivity. Qed.

(** Without a shape, the constructor sizes the constant with
    [bitsFor(value, value < 0)] and takes [value < 0] as signedness. *)
Lemma Const_new_derives_shape (v : Z) :
  Const_new v None =
  (w <- bitsFor (Big v) (v <? 0) ;;
   sh <- Shape_new (of_Z w) (v <? 0) ;;
   r <- normalize v sh ;;
   Ok (mkConst r sh)).
Proof.
  unfold Const_new.
  destruct (v <? 0) eqn:Hneg.
  - apply Z.ltb_lt in Hneg.
    rewrite (bitsFor_sign_bit_forced v false) by lia.
    destruct (bitsFor (Big v) true); reflexivity.
  - destruct (bitsFor (Big v) false); reflexivity.
Qed.

Lemma Const_new_examples :
  Const_new 5 None = Ok (mkConst 5 (mkShape (of_Z 3) false)) /\
  Const_new (-5) None = Ok (mkConst (-5) (mkShape (of_Z 4) true)).
Proof. split; reflexivity. Qed.

(** C3. [new Const(0n)] takes the shape [{width: 2, signed: false}] and
    [new Const(-1n)] the shape [{width: 2, signed: true}], while width 1
    already holds [0] unsigned and [-1] signed: the derived shape is not
    the smallest one that can hold the value. *)
Theorem Const_new_zero_not_minimal :
  Const_new 0 None = Ok (mkConst 0 (mkShape (of_Z 2) false)) /\
  Const_new (-1) None = Ok (mkConst (-1) (mkShape (of_Z 2) true)) /\
  minimal_width false 0 1 /\
  minimal_width true (-1) 1 /\
  normalize 0 (mkShape (of_Z 1) false) = Ok 0 /\
  normalize (-1) (mkShape (of_Z 1) true) = Ok (-1).
Proof.
  split; [reflexivity |]; split; [reflexivity |].
  split; [| split; [| split; reflexivity]];
    unfold minimal_width, representable; cbn; repeat split; lia.
Qed.

(** A value the shape can hold is its own representative. *)
Lemma normalize_representable (v w : Z) (s : bool) :
  1 <= w -> representable w s v -> normalize v (mkShape (of_Z w) s) = Ok v.
Proof.
  intros Hw Hv.
  rewrite (normalize_eval v (of_Z w) s w (BigInt_integer w) Hw).
  f_equal; cbn zeta.
  pose proof (pow2_split w Hw) as Hsplit.
  assert (Hp : 0 < 2 ^ (w - 1)) by (apply Z.pow_pos_nonneg; lia).
  unfold representable in Hv.
  destruct s; cbn [andb].
  - destruct (Z.neg_nonneg_cases v) as [Hneg | Hnn].
    + replace (v mod 2 ^ w) with (v + 2 ^ w).
      * replace (v + 2 ^ w <? 2 ^ (w - 1)) with false
          by (symmetry; apply Z.ltb_ge; lia).
        cbn [negb]; lia.
      * apply Z.mod_unique with (q := -1); lia.
    + rewrite Z.mod_small by lia.
      replace (v <? 2 ^ (w - 1)) with true by (symmetry; apply Z.ltb_lt; lia).
      reflexivity.
  - apply Z.mod_small; lia.
Qed.

(** Away from [0] and [-1] the derived shape is the smallest one and the
    value is stored as it is. *)
Lemma Const_new_positive (v : Z) :
  0 < v ->
  exists w,
    Const_new v None = Ok (mkConst v (mkShape (of_Z w) false)) /\
    minimal_width false v w.
Proof.
  intros Hv.
  destruct (bitsFor_positive_minimal v Hv) as (w & Hw & Hmin).
  exists w; split; [| exact Hmin].
  destruct Hmin as (Hw1 & Hrep & _).
  unfold Const_new; rewrite Hw; cbn [bind].
  replace (v <? 0) with false by (symmetry; apply Z.ltb_ge; lia).
  rewrite Shape_new_ok; cbn [bind].
  - rewrite normalize_representable by assumption; reflexivity.
  - unfold num_ge, num_le, one, of_Z, inject_Z, Qle_bool; cbn [Qnum Qden].
    apply Z.leb_le; lia.
Qed.

Lemma Const_new_negative (v : Z) :
  v <= -2 ->
  exists w,
    Const_new v None = Ok (mkConst v (mkShape (of_Z w) true)) /\
    minimal_width true v w.
Proof.
  intros Hv.
  destruct (bitsFor_negative_minimal v false Hv) as (w & Hw & Hmin).
  exists w; split; [| exact Hmin].
  destruct Hmin as (Hw1 & Hrep & _).
  unfold Const_new; rewrite Hw; cbn [bind].
  replace (v <? 0) with true by (symmetry; apply Z.ltb_lt; lia).
  rewrite Shape_new_ok; cbn [bind].
  - rewrite normalize_representable by assumption; reflexivity.
  - unfold num_ge, num_le, one, of_Z, inject_Z, Qle_bool; cbn [Qnum Qden].
    apply Z.leb_le; lia.
Qed.

(** ** The [Shape] constructor *)

(** [a <= b] fails exactly when [b < a] or one of the two is [NaN]. *)
Lemma num_le_false (a b : number) :
  num_le a b = false <-> num_lt b a = true \/ a = NaN \/ b = NaN.
Proof.
  destruct a as [| [|] | p], b as [| [|] | q]; cbn;
    try (split; [intros; auto; discriminate | intros [H | [H | H]]; try discriminate; reflexivity]).
  destruct (Qle_bool p q); cbn; split; intros H; auto; try discriminate.
  destruct H as [H | [H | H]]; discriminate.
Qed.

(** C10 (amended). [new Shape(width, signed)] checks [width >= 1] and
    nothing else: it succeeds exactly when [width >= 1] holds, for
    integral and non-integral widths alike, and stores the width
    unchanged; it fails exactly when [width < 1] or [width] is [NaN].
    [Shape.signed] and [Shape.unsigned] are that constructor. *)
Theorem Shape_new_validation (w : number) (s : bool) :
  (Shape_new w s = Ok (mkShape w s) <-> num_ge w one = true) /\
  (Shape_new w s = Err (AssertionError "Shape must be non-negative and non-zero.")
   <-> num_lt w one = true \/ w = NaN) /\
  Shape_signed w = Shape_new w true /\
  Shape_unsigned w = Shape_new w false.
Proof.
  unfold Shape_signed, Shape_unsigned, Shape_new, num_ge.
  pose proof (num_le_false one w) as Hf.
  destruct (num_le one w) eqn:Hle; cbn [assert bind].
  - repeat split; try reflexivity; try discriminate.
    intros H.
    assert (Hc : true = false); [| discriminate].
    apply Hf; destruct H as [H | H]; [left; exact H | right; right; exact H].
  - repeat split; try reflexivity; try discriminate.
    intros _. destruct (proj1 Hf eq_refl) as [H | [H | H]]; auto.
    discriminate.
Qed.

Lemma Shape_new_validation_witness :
  Shape_new (Fin (3 # 2)) false = Ok (mkShape (Fin (3 # 2)) false).
Proof.
  apply (proj1 (Shape_new_validation (Fin (3 # 2)) false)).
  reflexivity.
Defined.

(** C10 as stated fails at [NaN]: the constructor rejects it, and
    [NaN < 1] is false. *)
Lemma Shape_new_NaN_counterexample :
  ~ (succeeds (Shape_new NaN false) = false <-> num_lt NaN one = true).
Proof. cbn; intros [H _]; specialize (H eq_refl); discriminate. Qed.

(** ** [Operator] *)

Lemma mapM_Value_cast (operands : list ValueCastFrom) :
  (exists vs, mapM Value_cast operands = Ok vs) \/
  mapM Value_cast operands = Err (Thrown "").
Proof.
  induction operands as [| o os IH]; cbn [mapM]; [left; eexists; reflexivity |].
  destruct o; cbn [Value_cast bind]; auto.
  destruct IH as [[vs ->] | ->]; cbn [bind]; [left; eexists; reflexivity | auto].
Qed.

(** C6 (amended). For every operator, ["+"] among them, and every
    operand list, asking an [Operator] node for its shape throws: the
    getter is [throw ""], and no width or signedness is inferred from the
    operands. *)
Theorem Operator_shape_throws (operator : ValueOp) (operands : list ValueCastFrom) :
  (node <- Operator_new operator operands ;; Value_shape node) = Err (Thrown "").
Proof.
  unfold Operator_new.
  destruct (mapM_Value_cast operands) as [[vs ->] | ->]; reflexivity.
Qed.

(** C6 as stated fails on its own example: the sum of two unsigned
    4-bit constants has no shape, not the shape [{width: 5, signed: false}]. *)
Lemma Operator_plus_shape_counterexample :
  (u4 <- Shape_unsigned (of_Z 4) ;;
   a <- Const_new 3 (Some u4) ;;
   b <- Const_new 2 (Some u4) ;;
   node <- Operator_new OpPlus [FromValue (VConst a); FromValue (VConst b)] ;;
   Value_shape node) <> Ok (mkShape (of_Z 5) false).
Proof. cbn; discriminate. Qed.

(** ** [Slice] *)

(** The first bound check asks for [start <= -(n + 1)] and
    [n + 1 <= start] at once, which no offset satisfies when [n >= 1]. *)
Lemma Slice_bound_check_fails (n offset : number) :
  num_ge n one = true ->
  num_ge (num_neg (num_add n one)) offset && num_le (num_add n one) offset = false.
Proof.
  destruct n as [| [|] | q]; cbn; try discriminate.
  - intros _; destruct offset as [| [|] | p]; reflexivity.
  - intros Hq; apply Qle_bool_iff in Hq.
    destruct offset as [| [|] | p]; cbn; try reflexivity.
    apply andb_false_iff.
    destruct (Qle_bool p (- (q + inject_Z 1))) eqn:H1; [right | left; reflexivity].
    destruct (Qle_bool (q + inject_Z 1) p) eqn:H2; [exfalso | reflexivity].
    apply Qle_bool_iff in H1, H2.
    change (inject_Z 1) with 1%Q in *. lra.
Qed.

(** No slice of a value whose width is at least 1 can be built: the
    constructor stops at its first assertion whatever the offsets are. *)
Lemma Slice_new_never_succeeds (value2 : Value) (sh : Shape) (start stop : number) :
  Value_shape value2 = Ok sh ->
  num_ge (width sh) one = true ->
  Slice_new (FromValue value2) start stop =
  Err (AssertionError "Cannot start a slice ${start} bits into ${n}-bit value.").
Proof.
  intros Hsh Hw; unfold Slice_new; cbn [Value_cast bind].
  rewrite Hsh; cbn [bind].
  rewrite Slice_bound_check_fails by exact Hw; reflexivity.
Qed.

(** C5. Slicing bits [0..4] of an 8-bit constant, offsets for which
    [0 <= start < stop <= n] holds, is rejected by the first assertion of
    the constructor, and so is the slice [-4..8]: the comparisons of the
    bound checks are the wrong way round. *)
Theorem Slice_new_rejects_valid_offsets :
  (u8 <- Shape_unsigned (of_Z 8) ;;
   c <- Const_new 0 (Some u8) ;;
   Slice_new (FromValue (VConst c)) (of_Z 0) (of_Z 4))
  = Err (AssertionError "Cannot start a slice ${start} bits into ${n}-bit value.") /\
  (u8 <- Shape_unsigned (of_Z 8) ;;
   c <- Const_new 0 (Some u8) ;;
   Slice_new (FromValue (VConst c)) (of_Z (-4)) (of_Z 8))
  = Err (AssertionError "Cannot start a slice ${start} bits into ${n}-bit value.").
Proof. split; reflexivity. Qed.

(** ** [Value.matches] *)

Lemma regex_test_false (testStr : string) :
  regex_test testStr = false <->
  forallb ValidMatchChar (list_ascii_of_string testStr) = true.
Proof.
  unfold regex_test.
  induction (list_ascii_of_string testStr) as [| c cs IH]; cbn [existsb forallb].
  - split; reflexivity.
  - destruct (ValidMatchChar c); cbn [negb orb andb]; [exact IH |].
    split; discriminate.
Qed.

(** [matches] stops at the first pattern in which the regular expression
    finds no character outside [01*], and throws [""] when there is no
    such pattern. *)
Lemma matches_outcome (self : Value) (patterns : list string) :
  matches self patterns =
  match find (fun p => negb (regex_test p)) patterns with
  | Some p =>
      Err (AssertionError
             ("Match test string '" ++ p ++ "' contains invalid characters.")%string)
  | None => Err (Thrown "")
  end.
Proof.
  unfold matches.
  induction patterns as [| p ps IH]; cbn [forEach find bind]; [reflexivity |].
  unfold assert at 1.
  destruct (regex_test p); cbn [negb bind]; [exact IH | reflexivity].
Qed.

(** The assertion fires exactly when some pattern is made of the
    characters [0], [1] and [*] only. *)
Lemma matches_assertion_iff (self : Value) (patterns : list string) :
  (exists msg, matches self patterns = Err (AssertionError msg)) <->
  (exists p, In p patterns /\
             forallb ValidMatchChar (list_ascii_of_string p) = true).
Proof.
  rewrite matches_outcome.
  destruct (find (fun p => negb (regex_test p)) patterns) as [p |] eqn:Hfind.
  - apply find_some in Hfind as [Hin Hp].
    split; [intros _ | intros _; eexists; reflexivity].
    exists p; split; [exact Hin |].
    apply regex_test_false; destruct (regex_test p); [discriminate | reflexivity].
  - split; [intros [msg H]; discriminate |].
    intros (p & Hin & Hp).
    apply regex_test_false in Hp.
    pose proof (find_none _ _ Hfind p Hin) as Hn; cbn in Hn.
    rewrite Hp in Hn; discriminate.
Qed.

(** C8. On a 3-bit constant, [matches("101")], whose pattern has no
    character outside [01*], fails with the assertion error, while
    [matches("1x1")] passes the validation and reaches the final
    [throw ""]: the test is the negation of the intended one. *)
Theorem matches_rejects_valid_pattern :
  (u3 <- Shape_unsigned (of_Z 3) ;;
   c <- Const_new 5 (Some u3) ;;
   matches (VConst c) ["101"])
  = Err (AssertionError "Match test string '101' contains invalid characters.") /\
  (u3 <- Shape_unsigned (of_Z 3) ;;
   c <- Const_new 5 (Some u3) ;;
   matches (VConst c) ["1x1"])
  = Err (Thrown "").
Proof. split; reflexivity. Qed.

(** ** [Shape.cast] *)

(** A range whose last value is [stop - step] is sized to hold it. *)
Lemma Shape_cast_Range_4 :
  exists r,
    Range_new (ArgsNumber (of_Z 4)) = Ok r /\
    Range_iterator 4 r = Some [of_Z 0; of_Z 1; of_Z 2; of_Z 3] /\
    Shape_cast (CastRange r) = Ok (mkShape (of_Z 2) false) /\
    representable 2 false 3.
Proof.
  eexists; split; [reflexivity |]; split; [reflexivity |]; split; [reflexivity |].
  unfold representable; cbn; lia.
Qed.

(** C7. The range [{start: 0, stop: 5, step: 2}] yields [0, 2, 4] and is
    cast to the shape [{width: 2, signed: false}], which cannot hold [4]:
    the cast sizes [stop - step = 3], not the last value of the range.
    The mapping [{a: 0, b: 7}] is cast to the same shape, which cannot
    hold [7]: its maximum is computed with [Math.min]. *)
Theorem Shape_cast_too_narrow :
  (exists r,
     Range_new (ArgsNamed (Some (of_Z 0)) (of_Z 5) (Some (of_Z 2))) = Ok r /\
     Range_iterator 3 r = Some [of_Z 0; of_Z 2; of_Z 4] /\
     Shape_cast (CastRange r) = Ok (mkShape (of_Z 2) false)) /\
  ~ representable 2 false 4 /\
  normalize 4 (mkShape (of_Z 2) false) = Ok 0 /\
  Shape_cast (CastDictionary [("a", of_Z 0); ("b", of_Z 7)])
  = Ok (mkShape (of_Z 2) false) /\
  ~ representable 2 false 7 /\
  normalize 7 (mkShape (of_Z 2) false) = Ok 3.
Proof.
  split; [eexists; repeat split; reflexivity |].
  repeat split; try reflexivity; unfold representable; cbn; lia.
Qed.

(** * Further properties *)

(** ** [bitLength] *)

(** For a [bigint] other than [0n], [bitLength] is the [k] of its doc
    comment: [2^(k-1) <= |n| < 2^k]. *)
Theorem bitLength_bounds (n : Z) (zeroIsZero : bool) :
  n <> 0 ->
  2 ^ (bitLength n zeroIsZero - 1) <= Z.abs n < 2 ^ bitLength n zeroIsZero.
Proof.
  intros Hn; rewrite bitLength_nonzero by exact Hn.
  assert (Habs : 0 < Z.abs n) by lia.
  pose proof (Z.log2_spec (Z.abs n) Habs) as Hspec.
  replace (Z.log2 (Z.abs n) + 1 - 1) with (Z.log2 (Z.abs n)) by lia.
  replace (Z.log2 (Z.abs n) + 1) with (Z.succ (Z.log2 (Z.abs n))) by lia.
  exact Hspec.
Qed.

Lemma bitLength_bounds_witness :
  2 ^ (bitLength (-5) false - 1) <= Z.abs (-5) < 2 ^ bitLength (-5) false.
Proof. apply (bitLength_bounds (-5) false); lia. Defined.

Lemma bitLength_at_least_one (n : Z) (zeroIsZero : bool) :
  1 <= bitLength n zeroIsZero.
Proof.
  destruct (Z.eq_dec n 0) as [-> | Hn]; [rewrite bitLength_zero; lia |].
  rewrite bitLength_nonzero by exact Hn.
  pose proof (Z.log2_nonneg (Z.abs n)); lia.
Qed.

(** On a [bigint], [bitLength] ignores the sign and the [zeroIsZero]
    flag, and is never below 1: [0n] has length 1 even when the flag asks
    for 0. *)
Theorem bitLength_sign_and_flag (n : Z) (zeroIsZero : bool) :
  bitLength (- n) zeroIsZero = bitLength n false /\
  1 <= bitLength n zeroIsZero.
Proof.
  split.
  - destruct n as [| p | p]; reflexivity.
  - apply bitLength_at_least_one.
Qed.

(** ** [log2_int] *)

(** With [need_pow2], [log2_int] on a [bigint] returns [k] exactly when
    the argument is [2^k] with [k >= 1]; it throws on everything else,
    [1n] and [0n] included. *)
Theorem log2_int_need_pow2_iff (n k : Z) :
  log2_int (Big n) true = Ok k <-> 1 <= k /\ n = 2 ^ k.
Proof.
  split.
  - unfold log2_int; cbn [strict_equals BigInt bind andb].
    pose proof (bitLength_at_least_one (n - 1) false) as Hr.
    destruct (Z.shiftl 1 (bitLength (n - 1) false) =? n) eqn:He;
      cbn [negb]; [| discriminate].
    intros [= <-]; split; [exact Hr |].
    apply Z.eqb_eq in He; rewrite Z.shiftl_1_l in He; congruence.
  - intros [Hk ->]; apply log2_int_power_of_two; exact Hk.
Qed.

(** Without [need_pow2], [log2_int] of an integer from 2 on is the
    ceiling of its binary logarithm. *)
Theorem log2_int_ceiling_bounds (n : Z) :
  2 <= n ->
  exists r,
    log2_int (Num (of_Z n)) false = Ok r /\ 2 ^ (r - 1) < n <= 2 ^ r.
Proof.
  intros Hn; exists (Z.log2_up n); split.
  - rewrite log2_int_of_Z by lia; apply log2_int_ceiling; exact Hn.
  - assert (H1 : 1 < n) by lia.
    pose proof (Z.log2_up_spec n H1) as Hspec.
    replace (Z.log2_up n - 1) with (Z.pred (Z.log2_up n)) by lia.
    exact Hspec.
Qed.

Lemma log2_int_ceiling_bounds_witness :
  exists r,
    log2_int (Num (of_Z 5)) false = Ok r /\ 2 ^ (r - 1) < 5 <= 2 ^ r.
Proof. apply (log2_int_ceiling_bounds 5); lia. Defined.

(** ** [bitsFor] *)


Lemma bitsFor_positive_signed (n : Z) :
  0 < n -> bitsFor (Big n) true = Ok (Z.log2 n + 2).
Proof.
  intros Hn.
  pose proof (bitsFor_positive n Hn) as Hu.
  unfold bitsFor in *; cbn [BigInt bind] in *.
  replace (n >? 0) with true in * by (symmetry; apply Z.gtb_lt; lia).
  destruct (log2_int (Big (n + 1)) false) as [r | e];
    cbn [bind] in *; [| discriminate].
  injection Hu as Hu; f_equal; lia.
Qed.

Lemma minimal_width_positive_signed (n : Z) :
  0 < n -> minimal_width true n (Z.log2 n + 2).
Proof.
  intros Hn.
  pose proof (Z.log2_spec n Hn) as [Hlo Hhi].
  pose proof (Z.log2_nonneg n) as Hl.
  replace (Z.succ (Z.log2 n)) with (Z.log2 n + 1) in Hhi by lia.
  unfold minimal_width, representable.
  replace (Z.log2 n + 2 - 1) with (Z.log2 n + 1) by lia.
  assert (0 < 2 ^ (Z.log2 n + 1)) by (apply Z.pow_pos_nonneg; lia).
  repeat split; try lia.
  intros w' Hw' [_ Hr].
  assert (2 ^ (w' - 1) <= 2 ^ Z.log2 n) by (apply Z.pow_le_mono_r; lia).
  lia.
Qed.

(** Away from [0] and [-1], [bitsFor] is the least width that holds the
    integer, unsigned when the integer is positive and no sign bit is
    asked for, signed otherwise. *)
Theorem bitsFor_minimal (n : Z) (requireSignBit : bool) :
  0 < n \/ n <= -2 ->
  exists w,
    bitsFor (Num (of_Z n)) requireSignBit = Ok w /\
    minimal_width (requireSignBit || (n <? 0)) n w.
Proof.
  intros [Hn | Hn]; rewrite bitsFor_of_Z.
  - replace (n <? 0) with false by (symmetry; apply Z.ltb_ge; lia).
    rewrite orb_false_r; destruct requireSignBit.
    + exists (Z.log2 n + 2); split;
        [apply bitsFor_positive_signed | apply minimal_width_positive_signed];
        exact Hn.
    + apply bitsFor_positive_minimal; exact Hn.
  - replace (n <? 0) with true by (symmetry; apply Z.ltb_lt; lia).
    rewrite orb_true_r; apply bitsFor_negative_minimal; exact Hn.
Qed.

Lemma bitsFor_minimal_witness :
  exists w,
    bitsFor (Num (of_Z (-8))) false = Ok w /\
    minimal_width (false || (-8 <? 0)) (-8) w.
Proof. apply (bitsFor_minimal (-8) false); right; lia. Defined.


(** What [bitsFor] returns on any integer: at least one bit, and enough
    bits to hold it. *)
Lemma bitsFor_holds_bigint (n : Z) (requireSignBit : bool) :
  exists w,
    bitsFor (Big n) requireSignBit = Ok w /\
    1 <= w /\
    representable w (requireSignBit || (n <? 0)) n.
Proof.
  destruct (Z.lt_trichotomy n (-1)) as [Hn | [-> | Hn]].
  - destruct (bitsFor_negative_minimal n requireSignBit) as (w & Hw & H1 & Hr & _);
      [lia |].
    replace (n <? 0) with true by (symmetry; apply Z.ltb_lt; lia).
    rewrite orb_true_r; exists w; auto.
  - exists 2; destruct requireSignBit; cbn;
      (split; [reflexivity | split; lia]).
  - destruct (Z.eq_dec n 0) as [-> | Hn0].
    + exists 2; destruct requireSignBit; cbn;
        (split; [reflexivity | split; lia]).
    + assert (Hpos : 0 < n) by lia.
      replace (n <? 0) with false by (symmetry; apply Z.ltb_ge; lia).
      rewrite orb_false_r; destruct requireSignBit.
      * exists (Z.log2 n + 2).
        destruct (minimal_width_positive_signed n Hpos) as (H1 & Hr & _).
        split; [apply bitsFor_positive_signed; exact Hpos | auto].
      * destruct (bitsFor_positive_minimal n Hpos) as (w & Hw & H1 & Hr & _).
        exists w; auto.
Qed.

(** On every integer, [0] and [-1] included, [bitsFor] succeeds with a
    width of at least 1 that holds the integer. *)
Theorem bitsFor_holds (n : Z) (requireSignBit : bool) :
  exists w,
    bitsFor (Num (of_Z n)) requireSignBit = Ok w /\
    1 <= w /\
    representable w (requireSignBit || (n <? 0)) n.
Proof. rewrite bitsFor_of_Z; apply bitsFor_holds_bigint. Qed.

(** ** [Const.normalize], further *)

(** The result of [normalize] is in the range of the shape and has the
    residue of the argument. *)
Lemma normalize_residue (v : Z) (x : number) (s : bool) (w : Z) :
  BigInt (Num x) = Ok w ->
  1 <= w ->
  exists r,
    normalize v (mkShape x s) = Ok r /\
    representable w s r /\
    r mod 2 ^ w = v mod 2 ^ w.
Proof.
  intros Hw Hpos.
  rewrite (normalize_eval v x s w Hw Hpos).
  eexists; split; [reflexivity |]; cbn zeta.
  pose proof (pow2_split w Hpos) as Hsplit.
  assert (Hp : 0 < 2 ^ (w - 1)) by (apply Z.pow_pos_nonneg; lia).
  assert (Hb : 0 <= v mod 2 ^ w < 2 ^ w) by (apply Z.mod_pos_bound; lia).
  unfold representable.
  destruct s; cbn [andb].
  - destruct (v mod 2 ^ w <? 2 ^ (w - 1)) eqn:Hlt; cbn [negb].
    + apply Z.ltb_lt in Hlt; split; [lia | apply Z.mod_mod; lia].
    + apply Z.ltb_ge in Hlt; split; [lia |].
      replace (v mod 2 ^ w - 2 ^ w) with (v mod 2 ^ w + (-1) * 2 ^ w) by lia.
      rewrite Z.mod_add by lia; apply Z.mod_mod; lia.
  - split; [lia | apply Z.mod_mod; lia].
Qed.

(** Two integers in the range of a shape with the same residue are the
    same integer. *)
Lemma representable_unique (w : Z) (s : bool) (a b : Z) :
  1 <= w ->
  representable w s a -> representable w s b ->
  a mod 2 ^ w = b mod 2 ^ w -> a = b.
Proof.
  intros Hw Ha Hb Hmod.
  pose proof (pow2_split w Hw) as Hsplit.
  assert (Hp : 0 < 2 ^ (w - 1)) by (apply Z.pow_pos_nonneg; lia).
  assert (Hdiv : (a - b) mod 2 ^ w = 0).
  { rewrite Zminus_mod, Hmod, Z.sub_diag; apply Z.mod_0_l; lia. }
  apply Z.mod_divide in Hdiv; [| lia].
  destruct Hdiv as [k Hk].
  assert (Hdiff : - 2 ^ w < a - b < 2 ^ w)
    by (unfold representable in *; destruct s; lia).
  assert (Hk0 : k = 0) by nia.
  subst k; lia.
Qed.

(** [normalize] drops the bits from position [w] on: adding a multiple
    of [2^w] to the argument does not change the result. *)
Theorem normalize_truncates (v k : Z) (sh : Shape) (w : Z) :
  BigInt (Num (width sh)) = Ok w ->
  1 <= w ->
  normalize (v + k * 2 ^ w) sh = normalize v sh.
Proof.
  destruct sh as [x s]; cbn [width]; intros Hw Hpos.
  rewrite !(normalize_eval _ x s w Hw Hpos).
  rewrite Z.mod_add; [reflexivity |].
  apply Z.pow_nonzero; lia.
Qed.

Lemma normalize_truncates_witness :
  normalize (5 + 3 * 2 ^ 4) (mkShape (of_Z 4) true)
  = normalize 5 (mkShape (of_Z 4) true).
Proof.
  apply (normalize_truncates 5 3 (mkShape (of_Z 4) true) 4).
  - reflexivity.
  - lia.
Defined.

(** [normalize] leaves an integer as it is exactly when the shape can
    hold it. *)
Theorem normalize_fixpoint_iff (v : Z) (sh : Shape) (w : Z) :
  BigInt (Num (width sh)) = Ok w ->
  1 <= w ->
  (normalize v sh = Ok v <-> representable w (signed sh) v).
Proof.
  destruct sh as [x s]; cbn [width signed]; intros Hw Hpos.
  destruct (normalize_residue v x s w Hw Hpos) as (r & Hr & Hrep & Hmod).
  rewrite Hr; split.
  - intros [= ->]; exact Hrep.
  - intros Hv; f_equal.
    apply (representable_unique w s r v Hpos Hrep Hv Hmod).
Qed.

Lemma normalize_fixpoint_iff_witness :
  normalize (-3) (mkShape (of_Z 4) true) = Ok (-3)
  <-> representable 4 (signed (mkShape (of_Z 4) true)) (-3).
Proof.
  apply (normalize_fixpoint_iff (-3) (mkShape (of_Z 4) true) 4).
  - reflexivity.
  - lia.
Defined.

(** Reading a normalized value under the other signedness of the same
    width is reading the original value under it: the signed and the
    unsigned representatives determine each other. *)
Theorem normalize_reinterpret (v : Z) (x : number) (s s' : bool) (w : Z) :
  BigInt (Num x) = Ok w ->
  1 <= w ->
  (r <- normalize v (mkShape x s) ;; normalize r (mkShape x s'))
  = normalize v (mkShape x s').
Proof.
  intros Hw Hpos.
  destruct (normalize_residue v x s w Hw Hpos) as (r & Hr & _ & Hmod).
  rewrite Hr; cbn [bind].
  rewrite !(normalize_eval _ x s' w Hw Hpos), Hmod; reflexivity.
Qed.

Lemma normalize_reinterpret_witness :
  (r <- normalize 200 (mkShape (of_Z 8) true) ;;
   normalize r (mkShape (of_Z 8) false))
  = normalize 200 (mkShape (of_Z 8) false).
Proof.
  apply (normalize_reinterpret 200 (of_Z 8) true false 8).
  - reflexivity.
  - lia.
Defined.

(** ** The [Const] constructor, further *)

Lemma normalize_again (v r : Z) (sh : Shape) :
  normalize v sh = Ok r -> normalize r sh = Ok r.
Proof.
  destruct sh as [x s]; unfold normalize.
  destruct (BigInt (Num x)) as [w | e] eqn:Hw; cbn [bind]; [| discriminate].
  destruct s; cbn [bind].
  - rewrite (BigInt_minus_one _ _ Hw); cbn [bind].
    destruct (Z.shiftr (Z.land v (Z.shiftl 1 w - 1)) (w - 1) =? 0) eqn:Htest;
      cbn [negb]; intros [= <-].
    + rewrite remask, Htest; reflexivity.
    + rewrite remask_extended, Htest; reflexivity.
  - intros [= <-]; rewrite remask; reflexivity.
Qed.

(** The value a [Const] stores is normalized for the shape it stores,
    with or without a shape argument. *)
Theorem Const_new_normalized (v : Z) (sh : option Shape) (c : Const) :
  Const_new v sh = Ok c -> normalize (value c) (shape c) = Ok (value c).
Proof.
  unfold Const_new.
  destruct (match sh with
            | Some s => Ok s
            | None => w <- bitsFor (Big v) false ;; Shape_new (of_Z w) (v <? 0)
            end) as [sh' | e]; cbn [bind]; [| discriminate].
  destruct (normalize v sh') as [r | e] eqn:Hr; cbn [bind]; [| discriminate].
  intros [= <-]; cbn [value shape].
  apply (normalize_again v r sh' Hr).
Qed.

Lemma Const_new_normalized_witness :
  normalize (value (mkConst 44 (mkShape (of_Z 8) false)))
            (shape (mkConst 44 (mkShape (of_Z 8) false)))
  = Ok (value (mkConst 44 (mkShape (of_Z 8) false))).
Proof.
  apply (Const_new_normalized 300 (Some (mkShape (of_Z 8) false))).
  reflexivity.
Defined.

(** With a shape argument the constructor fails exactly when the width
    of the shape is not an integer. *)
Theorem Const_new_explicit_succeeds_iff (v : Z) (sh : Shape) :
  succeeds (Const_new v (Some sh)) = succeeds (BigInt (Num (width sh))).
Proof.
  destruct sh as [x s]; unfold Const_new, normalize; cbn [bind width].
  destruct (BigInt (Num x)) as [w | e] eqn:Hw; cbn [bind]; [| reflexivity].
  destruct s; cbn [bind]; [| reflexivity].
  rewrite (BigInt_minus_one _ _ Hw); cbn [bind].
  destruct (negb _); reflexivity.
Qed.

(** Without a shape argument the constructor succeeds on every integer,
    stores it unchanged, is signed exactly for the negative ones, and
    takes a width that holds the integer. *)
Theorem Const_new_default_total (v : Z) :
  exists w,
    Const_new v None = Ok (mkConst v (mkShape (of_Z w) (v <? 0))) /\
    1 <= w /\
    representable w (v <? 0) v.
Proof.
  destruct (bitsFor_holds_bigint v (v <? 0)) as (w & Hw & H1 & Hrep).
  rewrite orb_diag in Hrep.
  exists w; split; [| split; assumption].
  rewrite Const_new_derives_shape, Hw; cbn [bind].
  rewrite Shape_new_ok; cbn [bind].
  - rewrite normalize_representable by assumption; reflexivity.
  - unfold num_ge, num_le, one, of_Z, inject_Z, Qle_bool; cbn [Qnum Qden].
    apply Z.leb_le; lia.
Qed.

(** ** [Shape], further *)


Lemma Shape_new_inv (w : number) (s : bool) (sh : Shape) :
  Shape_new w s = Ok sh -> sh = mkShape w s /\ num_ge w one = true.
Proof.
  unfold Shape_new.
  destruct (num_ge w one); cbn [assert bind]; [| discriminate].
  intros [= <-]; split; reflexivity.
Qed.

(** Every shape [Shape.cast] returns has a width of at least 1, whatever
    it is cast from. *)
Theorem Shape_cast_width_at_least_one (obj : ShapeCastFrom) (sh : Shape) :
  Shape_cast obj = Ok sh -> num_ge (width sh) one = true.
Proof.
  destruct obj as [o | o | o0 o1 | o | o]; cbn [Shape_cast];
    unfold Shape_unsigned.
  1-3: intros H; apply Shape_new_inv in H as [-> H]; exact H.
  all: repeat match goal with
             | |- context [bitsFor ?x ?y] =>
                 destruct (bitsFor x y); cbn [bind]; [| discriminate]
             end;
    intros H; apply Shape_new_inv in H as [-> H]; exact H.
Qed.

Lemma Shape_cast_width_at_least_one_witness :
  num_ge (width (mkShape (of_Z 3) true)) one = true.
Proof.
  apply (Shape_cast_width_at_least_one (CastTuple (of_Z 3) true)).
  reflexivity.
Defined.

(** Casting a shape the constructor built gives that shape back, and so
    does casting the pair of its width and signedness; casting the bare
    width gives the unsigned shape of that width. *)
Theorem Shape_cast_round_trip (w : number) (s : bool) (sh : Shape) :
  Shape_new w s = Ok sh ->
  Shape_cast (CastShape sh) = Ok sh /\
  Shape_cast (CastTuple w s) = Ok sh /\
  Shape_cast (CastNumber w) = Ok (mkShape w false).
Proof.
  intros H; pose proof (Shape_new_inv w s sh H) as [-> Hw].
  cbn [Shape_cast width signed]; unfold Shape_unsigned.
  rewrite !Shape_new_ok by exact Hw; repeat split.
Qed.

Lemma Shape_cast_round_trip_witness :
  Shape_cast (CastShape (mkShape (of_Z 4) true)) = Ok (mkShape (of_Z 4) true) /\
  Shape_cast (CastTuple (of_Z 4) true) = Ok (mkShape (of_Z 4) true) /\
  Shape_cast (CastNumber (of_Z 4)) = Ok (mkShape (of_Z 4) false).
Proof.
  apply (Shape_cast_round_trip (of_Z 4) true (mkShape (of_Z 4) true)).
  reflexivity.
Defined.

Lemma num_eq_refl (a : number) : a <> NaN -> num_eq a a = true.
Proof.
  destruct a as [| s | q]; intros Ha; [congruence | apply eqb_reflx |].
  apply Qeq_bool_iff; reflexivity.
Qed.

Lemma num_eq_sym (a b : number) : num_eq a b = num_eq b a.
Proof.
  destruct a as [| s | p], b as [| t | q]; cbn; try reflexivity.
  - destruct s, t; reflexivity.
  - apply eq_true_iff_eq; rewrite !Qeq_bool_iff; split; intros H; symmetry; exact H.
Qed.

Lemma num_eq_trans (a b c : number) :
  num_eq a b = true -> num_eq b c = true -> num_eq a c = true.
Proof.
  destruct a as [| s | p], b as [| t | q], c as [| u | r]; cbn;
    try discriminate.
  - destruct s, t, u; auto.
  - rewrite !Qeq_bool_iff; intros H1 H2; rewrite H1; exact H2.
Qed.

(** [equals] is an equivalence on the shapes the constructor accepts:
    reflexive when the width is at least 1, symmetric and transitive; and
    comparing with a shape is comparing with the pair of its width and
    signedness. *)
Theorem Shape_equals_equivalence (a b c : Shape) :
  (num_ge (width a) one = true -> Shape_equals a (CompareShape a) = true) /\
  Shape_equals a (CompareShape b) = Shape_equals b (CompareShape a) /\
  (Shape_equals a (CompareShape b) = true ->
   Shape_equals b (CompareShape c) = true ->
   Shape_equals a (CompareShape c) = true) /\
  Shape_equals a (CompareTuple (width b) (signed b))
  = Shape_equals a (CompareShape b).
Proof.
  destruct a as [wa sa], b as [wb sb], c as [wc sc];
    cbn [Shape_equals width signed].
  repeat split.
  - intros Hw; rewrite num_eq_refl, eqb_reflx; [reflexivity |].
    intros ->; discriminate.
  - rewrite (num_eq_sym wa wb); f_equal; destruct sa, sb; reflexivity.
  - rewrite !andb_true_iff; intros [H1 H2] [H3 H4]; split.
    + exact (num_eq_trans _ _ _ H1 H3).
    + destruct sa, sb, sc; auto.
Qed.

(** ** [Shape.cast] on mappings and ranges *)

Lemma Math_min_snoc (l : list number) (x : number) :
  Math_min (l ++ [x])%list = min2 (Math_min l) x.
Proof. unfold Math_min; rewrite fold_left_app; reflexivity. Qed.

Lemma min2_le (m x : number) : num_le m x = true -> min2 m x = m.
Proof.
  intros H; unfold min2; rewrite H.
  destruct m as [| s | p], x as [| t | q]; try reflexivity;
    cbn in H; try discriminate; destruct s; discriminate.
Qed.

(** The shape cast from a mapping depends on its least value only: an
    entry that is not below the least value never changes the shape,
    however large it is; and the empty mapping is rejected, its minimum
    being [Infinity]. *)
Theorem Shape_cast_dictionary_least_only
  (obj : IDictionary number) (key : string) (x : number) :
  (num_le (Math_min (Object_values obj)) x = true ->
   Shape_cast (CastDictionary (obj ++ [(key, x)])%list)
   = Shape_cast (CastDictionary obj)) /\
  Shape_cast (CastDictionary []) = Err not_an_integer.
Proof.
  split; [| reflexivity].
  intros Hle; cbn [Shape_cast]; unfold Object_values in *.
  rewrite map_app; cbn [map snd].
  rewrite Math_min_snoc, (min2_le _ _ Hle); reflexivity.
Qed.

Lemma Shape_cast_dictionary_least_only_witness :
  Shape_cast (CastDictionary ([("a", of_Z 1)] ++ [("b", of_Z 1000)])%list)
  = Shape_cast (CastDictionary [("a", of_Z 1)]).
Proof.
  apply (proj1 (Shape_cast_dictionary_least_only [("a", of_Z 1)] "b" (of_Z 1000))).
  reflexivity.
Defined.





(** ** Order on numbers *)

Ltac num_cases :=
  repeat match goal with
         | x : number |- _ => destruct x as [| [|] | ?]
         end;
  cbn in *; try reflexivity; try discriminate; try congruence.

Ltac q_bool :=
  repeat match goal with
         | H : Qle_bool _ _ = true |- _ => apply Qle_bool_iff in H
         | H : Qle_bool _ _ = false |- _ =>
             apply not_true_iff_false in H; rewrite Qle_bool_iff in H
         | H : negb _ = true |- _ => apply negb_true_iff in H
         | H : negb _ = false |- _ => apply negb_false_iff in H
         | H : Qeq_bool _ _ = true |- _ => apply Qeq_bool_iff in H
         | H : Qeq_bool _ _ = false |- _ =>
             apply not_true_iff_false in H; rewrite Qeq_bool_iff in H
         | |- negb _ = true => apply negb_true_iff
         | |- negb _ = false => apply negb_false_iff
         | |- Qle_bool _ _ = true => apply Qle_bool_iff
         | |- Qle_bool _ _ = false =>
             apply not_true_iff_false; rewrite Qle_bool_iff
         | |- Qeq_bool _ _ = true => apply Qeq_bool_iff
         | |- Qeq_bool _ _ = false =>
             apply not_true_iff_false; rewrite Qeq_bool_iff
         end.

Ltac q_solve :=
  q_bool;
  change (inject_Z 0) with 0%Q in *;
  change (inject_Z 1) with 1%Q in *;
  lra.

Lemma num_lt_not_eq (a b : number) : num_lt a b = true -> num_eq a b = false.
Proof. intros H; num_cases; q_solve. Qed.

Lemma num_lt_asym (a b : number) : num_lt a b = true -> num_lt b a = false.
Proof. intros H; num_cases; q_solve. Qed.

Lemma num_lt_le (a b : number) : num_lt a b = true -> num_le a b = true.
Proof. intros H; num_cases; q_solve. Qed.







(** ** The [Range] constructor *)

Lemma num_gt_zero_not_eq (c : number) :
  num_gt c zero = true -> num_eq c zero = false.
Proof. unfold num_gt; intros H; num_cases; q_solve. Qed.

Lemma num_gt_zero_not_lt (c : number) :
  num_gt c zero = true -> num_lt c zero = false.
Proof. unfold num_gt; apply num_lt_asym. Qed.

Lemma falsy_not_negative (c : number) :
  truthy c = false -> num_lt c zero = false.
Proof. intros H; num_cases; q_solve. Qed.

(** A range the constructor returns never has a negative step: the step
    is positive, or it is one of [0] and [NaN], which only the
    named-argument form lets through. *)
Theorem Range_new_step_not_negative (args : RangeArgs) (r : Range) :
  Range_new args = Ok r ->
  num_lt (step r) zero = false /\
  (num_gt (step r) zero = true \/ truthy (step r) = false).
Proof.
  destruct args as [n | l | a_start a_stop [s |]]; cbn [Range_new].
  - intros [= <-]; split; [reflexivity | left; reflexivity].
  - destruct l as [| a [| b [| c [| d l]]]]; cbn [List.length Nat.eqb Nat.leb negb assert bind];
      try discriminate;
      try (intros [= <-]; split; [reflexivity | left; reflexivity]).
    destruct (num_eq c zero); cbn [negb assert bind]; [discriminate |].
    destruct (num_gt c zero) eqn:Hc; cbn [assert bind]; [| discriminate].
    intros [= <-]; cbn [step]; split; [| left; exact Hc].
    apply num_gt_zero_not_lt, Hc.
  - destruct (truthy s) eqn:Ht.
    + destruct (num_eq s zero); cbn [negb assert bind]; [discriminate |].
      destruct (num_gt s zero) eqn:Hc; cbn [assert bind]; [| discriminate].
      intros [= <-]; cbn [step nullish]; split; [| left; exact Hc].
      apply num_gt_zero_not_lt, Hc.
    + cbn [bind]; intros [= <-]; cbn [step nullish]; split; [| right; exact Ht].
      apply falsy_not_negative, Ht.
  - cbn [bind]; intros [= <-]; split; [reflexivity | left; reflexivity].
Qed.

Lemma Range_new_step_not_negative_witness :
  num_lt (step (mkRange (of_Z 0) (of_Z 5) (of_Z 2))) zero = false /\
  (num_gt (step (mkRange (of_Z 0) (of_Z 5) (of_Z 2))) zero = true \/
   truthy (step (mkRange (of_Z 0) (of_Z 5) (of_Z 2))) = false).
Proof.
  apply (Range_new_step_not_negative (ArgsArray [of_Z 0; of_Z 5; of_Z 2])).
  reflexivity.
Defined.

(** The array form is accepted exactly for one or two elements, or for
    three elements whose third, the step, is positive; so an empty array,
    more than three elements, and a zero or negative or [NaN] step are all
    rejected. *)
Theorem Range_new_array_succeeds_iff (l : list number) :
  succeeds (Range_new (ArgsArray l)) = true <->
  (List.length l = 1 \/ List.length l = 2 \/
   (List.length l = 3 /\ num_gt (nth 2 l NaN) zero = true))%nat.
Proof.
  destruct l as [| a [| b [| c [| d l]]]];
    cbn [Range_new List.length Nat.eqb Nat.leb negb assert bind succeeds nth].
  - split; [discriminate | intros [H | [H | [H _]]]; discriminate].
  - split; auto.
  - split; auto.
  - destruct (num_gt c zero) eqn:Hc.
    + rewrite (num_gt_zero_not_eq c Hc); cbn; split; auto.
    + destruct (num_eq c zero); cbn;
        (split; [discriminate | intros [H | [H | [_ H]]]; discriminate]).
  - split; [discriminate | intros [H | [H | [H _]]]; discriminate].
Qed.

(** ** The [Range] iterator *)












Lemma count_up_zero_step (fuel : nat) (c r_stop : number) :
  num_lt c r_stop = true -> count_up fuel c r_stop zero = None.
Proof.
  revert c; induction fuel as [| fuel IH]; intros c Hc;
    cbn [count_up]; rewrite Hc; [reflexivity |].
  rewrite IH; [reflexivity |].
  clear IH; num_cases; q_solve.
Qed.

Lemma count_down_zero_step (fuel : nat) (c r_stop : number) :
  num_gt c r_stop = true -> count_down fuel c r_stop zero = None.
Proof.
  revert c; induction fuel as [| fuel IH]; intros c Hc;
    cbn [count_down]; rewrite Hc; [reflexivity |].
  rewrite IH; [reflexivity |].
  clear IH; unfold num_gt in *; num_cases; q_solve.
Qed.

(** The named-argument form accepts [step: 0], and the range it builds
    never stops yielding once [start] and [stop] differ: no amount of
    fuel reaches the end of the loop. *)
Theorem Range_zero_step_never_ends (r_start r_stop : number) (fuel : nat) :
  num_lt r_start r_stop = true \/ num_lt r_stop r_start = true ->
  Range_new (ArgsNamed (Some r_start) r_stop (Some zero))
  = Ok (mkRange r_start r_stop zero) /\
  Range_iterator fuel (mkRange r_start r_stop zero) = None.
Proof.
  intros H; split; [reflexivity |].
  unfold Range_iterator; cbn [start stop step].
  destruct H as [H | H].
  - rewrite (num_lt_not_eq _ _ H), (num_lt_asym _ _ H).
    apply count_up_zero_step, H.
  - rewrite num_eq_sym, (num_lt_not_eq _ _ H), H.
    apply count_down_zero_step, H.
Qed.

Lemma Range_zero_step_never_ends_witness :
  Range_new (ArgsNamed (Some (of_Z 0)) (of_Z 5) (Some zero))
  = Ok (mkRange (of_Z 0) (of_Z 5) zero) /\
  Range_iterator 1000 (mkRange (of_Z 0) (of_Z 5) zero) = None.
Proof.
  apply (Range_zero_step_never_ends (of_Z 0) (of_Z 5) 1000).
  left; reflexivity.
Defined.

(** ** Values: signal sets, operators, multiplexers *)

(** No value can be assigned to: [__lhsSignals] throws on every one of
    them, through any depth of slicing. *)
Theorem Value_lhsSignals_always_throws (v : Value) :
  Value_lhsSignals v = Err (Thrown "Value cannot be used in assignments.").
Proof.
  induction v as [c | sh | op operands | v IH a b]; cbn [Value_lhsSignals];
    try reflexivity.
  exact IH.
Qed.

(** The innermost value under any slices. *)
Lemma Value_rhsSignals_cases (v : Value) :
  Value_rhsSignals v = Ok [] \/ Value_rhsSignals v = Err (Thrown "").
Proof.
  induction v as [c | sh | op operands | v IH a b]; cbn [Value_rhsSignals];
    auto.
Qed.

(** A value never reads a signal: when [__rhsSignals] returns, through
    any depth of slicing, it returns the empty set. *)
Theorem Value_rhsSignals_empty (v : Value) (s : SignalSet) :
  Value_rhsSignals v = Ok s -> s = [].
Proof.
  destruct (Value_rhsSignals_cases v) as [H | H]; rewrite H.
  - intros [= <-]; reflexivity.
  - discriminate.
Qed.

Lemma Value_rhsSignals_empty_witness : ([] : SignalSet) = [].
Proof.
  apply (Value_rhsSignals_empty
           (VSlice (VAnyValue (mkShape (of_Z 8) false)) (of_Z 0) (of_Z 4))).
  reflexivity.
Defined.

Lemma mapM_Value_cast_ok (operands : list ValueCastFrom) (vs : list Value) :
  mapM Value_cast operands = Ok vs <-> operands = map FromValue vs.
Proof.
  revert vs; induction operands as [| o os IH]; intros vs; cbn [mapM].
  - split.
    + intros [= <-]; reflexivity.
    + destruct vs; [reflexivity | discriminate].
  - destruct o as [v | n | d]; cbn [Value_cast bind].
    + destruct (mapM Value_cast os) as [ws | e] eqn:Hos; cbn [bind].
      * split.
        -- intros [= <-]; cbn [map]; f_equal; apply IH; reflexivity.
        -- destruct vs as [| v' vs']; cbn [map]; [discriminate |].
           intros [= -> Hvs]; apply IH in Hvs; congruence.
      * split; [discriminate |].
        destruct vs as [| v' vs']; cbn [map]; [discriminate |].
        intros [= -> Hvs]; apply IH in Hvs; discriminate.
    + split; [discriminate | destruct vs; discriminate].
    + split; [discriminate | destruct vs; discriminate].
Qed.

(** An [Operator] is built exactly when every operand is already a
    value, and then holds the operator and the operands as given, in
    order; a number or a mapping among the operands makes it throw. *)
Theorem Operator_new_succeeds_iff
  (operator : ValueOp) (operands : list ValueCastFrom) (node : Value) :
  Operator_new operator operands = Ok node <->
  exists vs, operands = map FromValue vs /\ node = VOperator operator vs.
Proof.
  unfold Operator_new; split.
  - destruct (mapM Value_cast operands) as [vs | e] eqn:Hvs; cbn [bind];
      [| discriminate].
    intros [= <-]; exists vs; split; [apply mapM_Value_cast_ok, Hvs | reflexivity].
  - intros (vs & Hops & ->).
    apply mapM_Value_cast_ok in Hops; rewrite Hops; reflexivity.
Qed.

(** [Mux] never returns a node: the selector fails to cast, or its
    boolean conversion throws. *)
Theorem Mux_never_succeeds (selector : ValueCastFrom) (valTrue valFalse : Value) :
  Mux selector valTrue valFalse = Err (Thrown "").
Proof. destruct selector; reflexivity. Qed.

(** [matches] never returns a result: it throws on every value and
    every list of patterns, the empty list included. *)
Theorem matches_always_throws (self : Value) (patterns : list string) :
  exists e, matches self patterns = Err e.
Proof.
  rewrite matches_outcome.
  destruct (find (fun p => negb (regex_test p)) patterns); eexists; reflexivity.
Qed.

Lemma Slice_new_never_succeeds_witness :
  Slice_new (FromValue (VAnyValue (mkShape (of_Z 8) false))) (of_Z 2) (of_Z 6)
  = Err (AssertionError "Cannot start a slice ${start} bits into ${n}-bit value.").
Proof.
  apply (Slice_new_never_succeeds
           (VAnyValue (mkShape (of_Z 8) false)) (mkShape (of_Z 8) false)).
  - reflexivity.
  - reflexivity.
Defined.

(** ** [DUID] *)

Lemma DUID_sequence_spec (n : nat) (next : Z) :
  DUID_sequence n next =
  (map (fun i => DUID.mk (next + Z.of_nat i)) (seq 0 n), next + Z.of_nat n).
Proof.
  revert next; induction n as [| n IH]; intros next.
  - cbn; f_equal; lia.
  - cbn [DUID_sequence DUID_new]; rewrite IH.
    cbn [seq map]; rewrite <- seq_shift, map_map.
    f_equal; [f_equal |].
    + f_equal; lia.
    + apply map_ext; intros i; f_equal; lia.
    + lia.
Qed.

(** Identifiers are handed out in increasing order and never repeat:
    [n] constructions starting with the counter at [next] carry the
    values [next], [next + 1], ..., pairwise distinct, and leave the
    counter at [next + n] (within the range where the counter is an exact
    integer). *)
Theorem DUID_sequence_distinct (n : nat) (next : Z) :
  0 <= next ->
  next + Z.of_nat n <= 2 ^ 53 ->
  let '(ds, next') := DUID_sequence n next in
  next' = next + Z.of_nat n /\
  map DUID.value ds = map (fun i => next + Z.of_nat i) (seq 0 n) /\
  NoDup (map DUID.value ds).
Proof.
  intros _ _; rewrite DUID_sequence_spec.
  split; [reflexivity |].
  rewrite map_map; cbn [DUID.value]; split; [reflexivity |].
  apply Injective_map_NoDup; [| apply seq_NoDup].
  intros i j Hij; lia.
Qed.

Lemma DUID_sequence_distinct_witness :
  let '(ds, next') := DUID_sequence 3 0 in
  next' = 0 + Z.of_nat 3 /\
  map DUID.value ds = map (fun i => 0 + Z.of_nat i) (seq 0 3) /\
  NoDup (map DUID.value ds).
Proof. apply (DUID_sequence_distinct 3 0); [lia | cbn; lia]. Defined.
